(** * pal_guid.cpp: creation of a GUID from a random RFC 4122 UUID

    The native helper [CoreLibNative_CreateGuid] asks libuuid for sixteen
    random bytes, overlays them on a [GUID] structure and swaps the byte
    order of the three integer fields.  This development embeds the
    function over a byte-addressed memory, for either host byte order, and
    proves the properties the specification states about it. *)

From Stdlib Require Import String ZArith List Lia Btauto Bool Permutation.
From coqutil Require Import Byte Word.LittleEndianList.
Import ListNotations.

(** ** pal_endian.h *)

Module PalEndian.
Local Open Scope Z_scope.

(** Conversion of a mathematical integer to an unsigned [w]-bit one. *)
Definition wrap (w x : Z) : Z := x mod 2 ^ w.

(** Modelled from the spec: SWAP16 of pal_endian.h, whose text is not
    available.  The specification says that the field is taken as an
    unsigned 16-bit integer and its byte order reversed; the definition
    does so with shifts, truncated to the sixteen bits of the result. *)
Definition SWAP16 (x : Z) : Z :=
  wrap 16 (Z.lor (Z.shiftr x 8) (Z.shiftl x 8)).

(** Modelled from the spec: SWAP32 of pal_endian.h, whose text is not
    available.  The specification says that the field is taken as an
    unsigned 32-bit integer and its byte order reversed, byte 0 swapped
    with byte 3 and byte 1 with byte 2. *)
Definition SWAP32 (x : Z) : Z :=
  wrap 32
    (Z.lor
       (Z.lor
          (Z.lor (Z.shiftr x 24) (Z.land (Z.shiftr x 8) 0xFF00))
          (Z.shiftl (Z.land x 0xFF00) 8))
       (Z.shiftl x 24)).
End PalEndian.
Import PalEndian.

(** ** The C types of the translation unit and their layout *)

Module Layout.

Inductive scalar : Set := uint8_t | uint16_t | uint32_t.

Inductive ctype : Set :=
| Scalar (t : scalar)
| Array (t : scalar) (n : nat).

Definition scalar_size (t : scalar) : nat :=
  match t with
  | uint8_t => 1
  | uint16_t => 2
  | uint32_t => 4
  end.

Definition sizeof (t : ctype) : nat :=
  match t with
  | Scalar t => scalar_size t
  | Array t n => n * scalar_size t
  end.

(** An array is aligned as its elements are. *)
Definition alignof (al : scalar -> nat) (t : ctype) : nat :=
  match t with
  | Scalar t => al t
  | Array t _ => al t
  end.

(** The alignment every ABI the runtime is built for gives its scalars. *)
Definition natural_alignment : scalar -> nat := scalar_size.

(** The next multiple of [a] at or after [off]. *)
Definition align_up (off a : nat) : nat := (off + a - 1) / a * a.

Inductive field : Set := Data1 | Data2 | Data3 | Data4.

Definition field_eqb (f g : field) : bool :=
  match f, g with
  | Data1, Data1 | Data2, Data2 | Data3, Data3 | Data4, Data4 => true
  | _, _ => false
  end.

(** [typedef struct _GUID { ... } GUID;] in declaration order. *)
Definition GUID_decl : list (field * ctype) :=
  [ (Data1, Scalar uint32_t);
    (Data2, Scalar uint16_t);
    (Data3, Scalar uint16_t);
    (Data4, Array uint8_t 8) ].

(** [uuid_t] of libuuid: [typedef unsigned char uuid_t[16];]. *)
Definition uuid_t : ctype := Array uint8_t 16.

(** Members are laid out in declaration order, each at the first offset
    that satisfies its alignment.  The result pairs every member with its
    offset and gives the offset just after the last member. *)
Fixpoint layout_from (al : scalar -> nat) (off : nat)
         (fs : list (field * ctype)) : list (field * nat) * nat :=
  match fs with
  | [] => ([], off)
  | (f, t) :: fs' =>
      let o := align_up off (alignof al t) in
      let (rest, e) := layout_from al (o + sizeof t) fs' in
      ((f, o) :: rest, e)
  end.

Definition layout (al : scalar -> nat) (fs : list (field * ctype)) :=
  fst (layout_from al 0 fs).

Definition struct_align (al : scalar -> nat) (fs : list (field * ctype)) : nat :=
  fold_right (fun ft a => Nat.max (alignof al (snd ft)) a) 1 fs.

(** The size of a structure: the end of its last member, rounded up to
    the alignment of the structure. *)
Definition struct_size (al : scalar -> nat) (fs : list (field * ctype)) : nat :=
  align_up (snd (layout_from al 0 fs)) (struct_align al fs).

(** Sum of the sizes of the members: the bytes that are not padding. *)
Definition payload_size (fs : list (field * ctype)) : nat :=
  fold_right (fun ft n => sizeof (snd ft) + n) 0 fs.

Fixpoint lookup_offset (f : field) (l : list (field * nat)) : nat :=
  match l with
  | [] => 0
  | (g, o) :: l' => if field_eqb f g then o else lookup_offset f l'
  end.

(** [offsetof(GUID, f)] on the ABIs the runtime is built for. *)
Definition offsetof (f : field) : nat :=
  lookup_offset f (layout natural_alignment GUID_decl).

End Layout.
Import Layout.

(** ** Memory, loads and stores *)

Inductive byte_order : Set := LittleEndian | BigEndian.

(** The value of a byte string read as an unsigned integer. *)
Definition decode (e : byte_order) (bs : list byte) : Z :=
  match e with
  | LittleEndian => le_combine bs
  | BigEndian => le_combine (rev bs)
  end.

(** The [n] bytes that represent an unsigned integer in memory; bits of
    [v] beyond the [n] bytes are dropped, as by the conversion to the type
    of the object stored to. *)
Definition encode (e : byte_order) (n : nat) (v : Z) : list byte :=
  match e with
  | LittleEndian => le_split n v
  | BigEndian => rev (le_split n v)
  end.

Definition load_bytes (m : list byte) (a n : nat) : option (list byte) :=
  if a + n <=? length m then Some (firstn n (skipn a m)) else None.

Definition store_bytes (m : list byte) (a : nat) (bs : list byte)
  : option (list byte) :=
  if a + length bs <=? length m
  then Some (firstn a m ++ bs ++ skipn (a + length bs) m)
  else None.

(** What the function does that is visible from outside: the call of the
    external generator and the stores to memory. *)
Inductive event : Set :=
| ev_uuid_generate_random (out : nat)
| ev_store (addr width : nat).

Record machine : Type := { heap : list byte; trace : list event }.

(** Computations read and write the machine and fault on an access outside
    of the memory. *)
Definition M (A : Type) : Type := machine -> option (A * machine).

Definition ret {A} (a : A) : M A := fun s => Some (a, s).

Definition bind {A B} (c : M A) (k : A -> M B) : M B :=
  fun s => match c s with
           | Some (a, s') => k a s'
           | None => None
           end.

Notation "x <- c ;; k" := (bind c (fun x => k))
  (at level 61, c at next level, right associativity).
Notation "c ;; k" := (bind c (fun _ => k))
  (at level 61, right associativity).

Definition load (e : byte_order) (t : scalar) (a : nat) : M Z :=
  fun s => match load_bytes (heap s) a (scalar_size t) with
           | Some bs => Some (decode e bs, s)
           | None => None
           end.

Definition store (e : byte_order) (t : scalar) (a : nat) (v : Z) : M unit :=
  fun s => match store_bytes (heap s) a (encode e (scalar_size t) v) with
           | Some m => Some (tt, {| heap := m;
                                    trace := trace s ++ [ev_store a (scalar_size t)] |})
           | None => None
           end.

(** The external generator: one call writes the sixteen bytes [u] of a
    fresh random UUID, in RFC 4122 order, to the [uuid_t] at [out]. *)
Definition uuid_generate_random (u : list byte) (out : nat) : M unit :=
  fun s => match store_bytes (heap s) out u with
           | Some m => Some (tt, {| heap := m;
                                    trace := trace s ++ [ev_uuid_generate_random out] |})
           | None => None
           end.

(** ** The function *)

(** [CoreLibNative_CreateGuid(GUID* pGuid)] as compiled with libuuid, on a
    host of byte order [e], for the call in which the generator returns
    [u]. *)
Definition CoreLibNative_CreateGuid (e : byte_order) (u : list byte)
           (pGuid : nat) : M unit :=
  uuid_generate_random u pGuid ;;
  d1 <- load e uint32_t (pGuid + offsetof Data1) ;;
  store e uint32_t (pGuid + offsetof Data1) (SWAP32 d1) ;;
  d2 <- load e uint16_t (pGuid + offsetof Data2) ;;
  store e uint16_t (pGuid + offsetof Data2) (SWAP16 d2) ;;
  d3 <- load e uint16_t (pGuid + offsetof Data3) ;;
  store e uint16_t (pGuid + offsetof Data3) (SWAP16 d3).

(** The three assignments that follow the call of the generator. *)
Definition swap_fields (e : byte_order) (pGuid : nat) : M unit :=
  d1 <- load e uint32_t (pGuid + offsetof Data1) ;;
  store e uint32_t (pGuid + offsetof Data1) (SWAP32 d1) ;;
  d2 <- load e uint16_t (pGuid + offsetof Data2) ;;
  store e uint16_t (pGuid + offsetof Data2) (SWAP16 d2) ;;
  d3 <- load e uint16_t (pGuid + offsetof Data3) ;;
  store e uint16_t (pGuid + offsetof Data3) (SWAP16 d3).

(** The assignments as a function on a buffer that holds the structure and
    nothing else. *)
Definition transform (e : byte_order) (bs : list byte) : option (list byte) :=
  match swap_fields e 0 {| heap := bs; trace := [] |} with
  | Some (_, s) => Some (heap s)
  | None => None
  end.

(** The whole function on a fresh sixteen-byte destination. *)
Definition generate (e : byte_order) (u : list byte) : option (list byte) :=
  match CoreLibNative_CreateGuid e u 0
          {| heap := repeat Byte.x00 16; trace := [] |} with
  | Some (_, s) => Some (heap s)
  | None => None
  end.

(** The translation unit under the preprocessor: [HAVE_LIBUUID_H] is
    [None] when the macro is not defined, which [#if] reads as zero. *)
Inductive build_result : Type :=
| build_error (message : string)
| build_ok (f : byte_order -> list byte -> nat -> M unit).

Definition cpp_if (macro : option Z) : bool :=
  match macro with
  | Some v => negb (Z.eqb v 0)
  | None => false
  end.

Definition pal_guid_cpp (HAVE_LIBUUID_H : option Z) : build_result :=
  if cpp_if HAVE_LIBUUID_H
  then build_ok CoreLibNative_CreateGuid
  else build_error "Don't know how to generate UUID on this platform"%string.

(** ** The reading of the sixteen bytes as fields *)

Record GUID : Type :=
  { GUID_Data1 : Z; GUID_Data2 : Z; GUID_Data3 : Z; GUID_Data4 : list byte }.

(** The field values of sixteen bytes whose integer fields are stored in
    byte order [e]. *)
Definition read_GUID (e : byte_order) (bs : list byte) : GUID :=
  {| GUID_Data1 := decode e (firstn 4 bs);
     GUID_Data2 := decode e (firstn 2 (skipn 4 bs));
     GUID_Data3 := decode e (firstn 2 (skipn 6 bs));
     GUID_Data4 := skipn 8 bs |}.

(** RFC 4122: the version is the most significant four bits of the third
    field, the variant the most significant bits of the first byte of the
    last field. *)
Definition uuid_version (g : GUID) : Z := Z.shiftr (GUID_Data3 g) 12.

Definition uuid_variant (g : GUID) : Z :=
  Z.shiftr (byte.unsigned (hd Byte.x00 (GUID_Data4 g))) 6.

(** ** The byte-position formulation of the specification *)

(** Reverse the [n] bytes at positions [pos .. pos + n - 1]. *)
Definition reverse_bytes_at (pos n : nat) (bs : list byte) : list byte :=
  firstn pos bs ++ rev (firstn n (skipn pos bs)) ++ skipn (pos + n) bs.

(** Steps 2 to 5 of the algorithm: reverse bytes 0-3, then bytes 4-5, then
    bytes 6-7, and leave the rest. *)
Definition spec_reverse_fields (bs : list byte) : list byte :=
  reverse_bytes_at 6 2 (reverse_bytes_at 4 2 (reverse_bytes_at 0 4 bs)).

(** The permutation of the sixteen positions: output position [i] holds
    the input byte of position [nth i guid_permutation 0]. *)
Definition guid_permutation : list nat :=
  [3; 2; 1; 0; 5; 4; 7; 6; 8; 9; 10; 11; 12; 13; 14; 15].

Definition permute (p : list nat) (bs : list byte) : list byte :=
  map (fun i => nth i bs Byte.x00) p.

(** ** Events of a call and the example of the specification *)

(** The stores of the three assignments, in program order. *)
Definition swap_stores (pGuid : nat) : list event :=
  [ ev_store (pGuid + offsetof Data1) 4;
    ev_store (pGuid + offsetof Data2) 2;
    ev_store (pGuid + offsetof Data3) 2 ].

(** The events of a whole call, in program order. *)
Definition call_events (pGuid : nat) : list event :=
  ev_uuid_generate_random pGuid :: swap_stores pGuid.

(** A store event that stays inside [lo, hi). *)
Definition store_within (lo hi : nat) (ev : event) : bool :=
  match ev with
  | ev_store a w => (lo <=? a) && (a + w <=? hi)
  | ev_uuid_generate_random _ => false
  end.

(** The input and the output of the example of the specification. *)
Definition example_input : list byte :=
  [ Byte.x01; Byte.x02; Byte.x03; Byte.x04; Byte.x05; Byte.x06; Byte.x07;
    Byte.x08; Byte.x09; Byte.x0a; Byte.x0b; Byte.x0c; Byte.x0d; Byte.x0e;
    Byte.x0f; Byte.x10 ].

Definition example_output : list byte :=
  [ Byte.x04; Byte.x03; Byte.x02; Byte.x01; Byte.x06; Byte.x05; Byte.x08;
    Byte.x07; Byte.x09; Byte.x0a; Byte.x0b; Byte.x0c; Byte.x0d; Byte.x0e;
    Byte.x0f; Byte.x10 ].

(** ** Sanity checks on concrete values *)

Example SWAP32_example : SWAP32 0x01020304 = 0x04030201%Z.
Proof. reflexivity. Qed.

Example SWAP16_example : SWAP16 0x0506 = 0x0605%Z.
Proof. reflexivity. Qed.

Example decode_big_endian :
  decode BigEndian [Byte.x01; Byte.x02; Byte.x03; Byte.x04] = 0x01020304%Z.
Proof. reflexivity. Qed.

Example decode_little_endian :
  decode LittleEndian [Byte.x01; Byte.x02; Byte.x03; Byte.x04] = 0x04030201%Z.
Proof. reflexivity. Qed.

Example encode_big_endian :
  encode BigEndian 2 0x0506 = [Byte.x05; Byte.x06].
Proof. vm_compute. reflexivity. Qed.

Example store_outside_faults :
  CoreLibNative_CreateGuid LittleEndian example_input 1
    {| heap := repeat Byte.x00 16; trace := [] |} = None.
Proof. vm_compute. reflexivity. Qed.

Example call_trace :
  option_map (fun r => trace (snd r))
    (CoreLibNative_CreateGuid BigEndian example_input 0
       {| heap := repeat Byte.x00 16; trace := [] |})
  = Some [ev_uuid_generate_random 0; ev_store 0 4; ev_store 4 2; ev_store 6 2].
Proof. vm_compute. reflexivity. Qed.

Example offsetof_example :
  (offsetof Data1, offsetof Data2, offsetof Data3, offsetof Data4) = (0, 4, 6, 8).
Proof. reflexivity. Qed.

(** ** Bits of bytes and of the swapped integers *)

Section Bits.
Local Open Scope Z_scope.

Lemma byte_testbit_high (b : byte) (i : Z) :
  8 <= i -> Z.testbit (byte.unsigned b) i = false.
Proof.
  intros H. rewrite <- byte.wrap_unsigned. unfold byte.wrap.
  apply Z.mod_pow2_bits_high. lia.
Qed.

Lemma mask_FF00 (i : Z) :
  0 <= i -> Z.testbit 0xFF00 i = andb (8 <=? i) (i <? 16).
Proof.
  intros H. change 0xFF00 with (Z.shiftl (Z.ones 8) 8).
  rewrite Z.shiftl_spec by lia.
  destruct (Z.leb_spec 8 i), (Z.ltb_spec i 16); simpl.
  - apply Z.ones_spec_low; lia.
  - apply Z.ones_spec_high; lia.
  - apply Z.testbit_neg_r; lia.
  - apply Z.testbit_neg_r; lia.
Qed.

Ltac split_idx i :=
  destruct (Z.ltb_spec i 8); [ |
  destruct (Z.ltb_spec i 16); [ |
  destruct (Z.ltb_spec i 24); [ |
  destruct (Z.ltb_spec i 32) ]]].

Ltac bit_step :=
  match goal with
  | |- context [Z.testbit (_ mod 2 ^ _) _] => rewrite Z.testbit_mod_pow2 by lia
  | |- context [Z.testbit (Z.lor _ _) _] => rewrite Z.lor_spec
  | |- context [Z.testbit (Z.land _ _) _] => rewrite Z.land_spec
  | |- context [Z.testbit 0 _] => rewrite Z.testbit_0_l
  | |- context [Z.testbit 0xFF00 ?k] => rewrite (mask_FF00 k) by lia
  | |- context [Z.testbit (Z.shiftr ?a ?n) ?k] =>
      rewrite (Z.shiftr_spec a n k) by lia
  | |- context [Z.testbit (Z.shiftl ?a ?n) ?k] =>
      first [ rewrite (Z.shiftl_spec_low a n k) by lia
            | rewrite (Z.shiftl_spec a n k) by lia ]
  | |- context [Z.testbit (byte.unsigned ?b) ?k] =>
      first [ rewrite (byte_testbit_high b k) by lia
            | rewrite (Z.testbit_neg_r (byte.unsigned b) k) by lia ]
  | |- context [Z.testbit _ ?k] => progress ring_simplify k
  | |- context [?a <? ?b] => destruct (Z.ltb_spec a b); try lia
  | |- context [?a <=? ?b] => destruct (Z.leb_spec a b); try lia
  end.

(** Equality of two integers built from bytes, bit by bit: the index is
    split at the byte boundaries and every bit is traced to its byte. *)
Ltac byte_bits :=
  let i := fresh "i" in
  let Hi := fresh "Hi" in
  apply Z.bits_inj'; intros i Hi;
  split_idx i; repeat bit_step; btauto.

Lemma SWAP16_le_combine (a b : byte) :
  SWAP16 (le_combine [a; b]) = le_combine [b; a].
Proof. unfold SWAP16, wrap. cbv [le_combine]. byte_bits. Qed.

Lemma SWAP32_le_combine (a b c d : byte) :
  SWAP32 (le_combine [a; b; c; d]) = le_combine [d; c; b; a].
Proof. unfold SWAP32, wrap. cbv [le_combine]. byte_bits. Qed.

(** The most significant four bits of a big-endian 16-bit field are the
    high nibble of its first byte. *)
Lemma version_bits (a b : byte) :
  Z.shiftr (le_combine [b; a]) 12 = Z.shiftr (byte.unsigned a) 4.
Proof. cbv [le_combine]. byte_bits. Qed.

End Bits.

(** Load, swap, store: whatever the byte order of the host, the bytes in
    memory end up reversed. *)
Lemma encode_SWAP32_decode (e : byte_order) (a b c d : byte) :
  encode e 4 (SWAP32 (decode e [a; b; c; d])) = [d; c; b; a].
Proof.
  destruct e; unfold encode, decode; cbn [rev app];
    rewrite SWAP32_le_combine.
  - apply split_le_combine'. reflexivity.
  - rewrite split_le_combine' by reflexivity. reflexivity.
Qed.

Lemma encode_SWAP16_decode (e : byte_order) (a b : byte) :
  encode e 2 (SWAP16 (decode e [a; b])) = [b; a].
Proof.
  destruct e; unfold encode, decode; cbn [rev app];
    rewrite SWAP16_le_combine.
  - apply split_le_combine'. reflexivity.
  - rewrite split_le_combine' by reflexivity. reflexivity.
Qed.

(** ** Accesses inside a block of the memory *)

Lemma load_bytes_mid (pre mid post : list byte) (k n : nat) :
  k + n <= length mid ->
  load_bytes (pre ++ mid ++ post) (length pre + k) n
  = Some (firstn n (skipn k mid)).
Proof.
  intros H. unfold load_bytes.
  replace (length pre + k + n <=? length (pre ++ mid ++ post)) with true
    by (symmetry; apply Nat.leb_le; rewrite !length_app; lia).
  f_equal.
  rewrite skipn_app, skipn_all2 by lia.
  replace (length pre + k - length pre) with k by lia.
  cbn [app]. rewrite skipn_app, firstn_app, length_skipn.
  replace (n - (length mid - k)) with 0 by lia.
  cbn [firstn]. apply app_nil_r.
Qed.

Lemma store_bytes_mid (pre mid post bs : list byte) (k : nat) :
  k + length bs <= length mid ->
  store_bytes (pre ++ mid ++ post) (length pre + k) bs
  = Some (pre ++ (firstn k mid ++ bs ++ skipn (k + length bs) mid) ++ post).
Proof.
  intros H. unfold store_bytes.
  replace (length pre + k + length bs <=? length (pre ++ mid ++ post)) with true
    by (symmetry; apply Nat.leb_le; rewrite !length_app; lia).
  f_equal.
  rewrite firstn_app, firstn_all2 by lia.
  replace (length pre + k - length pre) with k by lia.
  rewrite firstn_app.
  replace (k - length mid) with 0 by lia.
  cbn [firstn]. rewrite app_nil_r.
  rewrite skipn_app, skipn_all2 by lia.
  replace (length pre + k + length bs - length pre) with (k + length bs) by lia.
  cbn [app]. rewrite skipn_app.
  replace (k + length bs - length mid) with 0 by lia.
  cbn [skipn]. rewrite <- !app_assoc. reflexivity.
Qed.

(** A memory with a sixteen-byte object at [p] splits around it. *)
Lemma heap_split (m : list byte) (p : nat) :
  p + 16 <= length m ->
  m = firstn p m ++ firstn 16 (skipn p m) ++ skipn (p + 16) m
  /\ length (firstn p m) = p
  /\ length (firstn 16 (skipn p m)) = 16.
Proof.
  intros H. split; [ | split ].
  - rewrite Nat.add_comm, <- skipn_skipn.
    rewrite (firstn_skipn 16 (skipn p m)). symmetry. apply firstn_skipn.
  - rewrite length_firstn. lia.
  - rewrite length_firstn, length_skipn. lia.
Qed.

(** A list of sixteen elements, spelled out. *)
Lemma length16_inv {A} (l : list A) :
  length l = 16 ->
  exists b0 b1 b2 b3 b4 b5 b6 b7 b8 b9 b10 b11 b12 b13 b14 b15,
    l = [b0; b1; b2; b3; b4; b5; b6; b7; b8; b9; b10; b11; b12; b13; b14; b15].
Proof.
  intros H.
  do 16 (destruct l as [ | ? l ]; [ discriminate H | ]).
  destruct l; [ | discriminate H ].
  repeat eexists.
Qed.

(** ** Running the function *)

Lemma length_encode (e : byte_order) (n : nat) (v : Z) :
  length (encode e n v) = n.
Proof.
  destruct e; unfold encode; rewrite ?length_rev; apply length_le_split.
Qed.

Lemma load_mid (e : byte_order) (t : scalar) (pre mid post : list byte)
      (k : nat) (tr : list event) :
  k + scalar_size t <= length mid ->
  load e t (length pre + k) {| heap := pre ++ mid ++ post; trace := tr |}
  = Some (decode e (firstn (scalar_size t) (skipn k mid)),
          {| heap := pre ++ mid ++ post; trace := tr |}).
Proof.
  intros H. unfold load. cbn [heap].
  rewrite load_bytes_mid by exact H. reflexivity.
Qed.

Lemma store_mid (e : byte_order) (t : scalar) (pre mid post : list byte)
      (k : nat) (v : Z) (tr : list event) :
  k + scalar_size t <= length mid ->
  store e t (length pre + k) v {| heap := pre ++ mid ++ post; trace := tr |}
  = Some (tt,
          {| heap := pre ++ (firstn k mid ++ encode e (scalar_size t) v
                               ++ skipn (k + scalar_size t) mid) ++ post;
             trace := tr ++ [ev_store (length pre + k) (scalar_size t)] |}).
Proof.
  intros H. unfold store. cbn [heap trace].
  rewrite store_bytes_mid by (rewrite length_encode; exact H).
  rewrite length_encode. reflexivity.
Qed.

Lemma uuid_generate_random_mid (u pre mid post : list byte) (tr : list event) :
  length u = length mid ->
  uuid_generate_random u (length pre)
    {| heap := pre ++ mid ++ post; trace := tr |}
  = Some (tt, {| heap := pre ++ u ++ post;
                 trace := tr ++ [ev_uuid_generate_random (length pre)] |}).
Proof.
  intros H. unfold uuid_generate_random. cbn [heap trace].
  rewrite <- (Nat.add_0_r (length pre)) at 1.
  rewrite store_bytes_mid by (rewrite H; apply Nat.le_refl).
  cbn [firstn Nat.add app]. rewrite H, skipn_all, app_nil_r.
  reflexivity.
Qed.

Ltac run_load :=
  match goal with
  | |- context [load ?e ?t (length ?pre + ?k)
                  {| heap := ?pre ++ ?mid ++ ?post; trace := ?tr |}] =>
      rewrite (load_mid e t pre mid post k tr) by (simpl; lia);
      cbv beta iota; cbn [firstn skipn scalar_size]
  end.

Ltac run_store :=
  match goal with
  | |- context [store ?e ?t (length ?pre + ?k) ?v
                  {| heap := ?pre ++ ?mid ++ ?post; trace := ?tr |}] =>
      rewrite (store_mid e t pre mid post k v tr) by (simpl; lia);
      cbv beta iota; cbn [scalar_size];
      rewrite ?encode_SWAP32_decode, ?encode_SWAP16_decode
  end;
  match goal with
  | |- context [Build_machine (?pre ++ ?mid ++ ?post) _] =>
      let mid' := eval simpl in mid in change mid with mid'
  end.

Lemma swap_fields_run (e : byte_order) (pre buf post : list byte)
      (tr : list event) :
  length buf = 16 ->
  swap_fields e (length pre) {| heap := pre ++ buf ++ post; trace := tr |}
  = Some (tt, {| heap := pre ++ spec_reverse_fields buf ++ post;
                 trace := tr ++ swap_stores (length pre) |}).
Proof.
  intros H.
  destruct (length16_inv buf H)
    as (b0 & b1 & b2 & b3 & b4 & b5 & b6 & b7 & b8 & b9 & b10 & b11
        & b12 & b13 & b14 & b15 & ->).
  unfold swap_fields, swap_stores, bind.
  change (offsetof Data1) with 0.
  change (offsetof Data2) with 4.
  change (offsetof Data3) with 6.
  run_load. run_store.
  run_load. run_store.
  run_load. run_store.
  rewrite <- !app_assoc. reflexivity.
Qed.

Lemma CoreLibNative_CreateGuid_unfold (e : byte_order) (u : list byte)
      (pGuid : nat) :
  CoreLibNative_CreateGuid e u pGuid
  = (uuid_generate_random u pGuid ;; swap_fields e pGuid).
Proof. reflexivity. Qed.

Lemma CoreLibNative_CreateGuid_run (e : byte_order)
      (u pre buf post : list byte) (tr : list event) :
  length u = 16 -> length buf = 16 ->
  CoreLibNative_CreateGuid e u (length pre)
    {| heap := pre ++ buf ++ post; trace := tr |}
  = Some (tt, {| heap := pre ++ spec_reverse_fields u ++ post;
                 trace := tr ++ call_events (length pre) |}).
Proof.
  intros Hu Hbuf.
  rewrite CoreLibNative_CreateGuid_unfold. unfold bind.
  rewrite uuid_generate_random_mid by congruence.
  rewrite swap_fields_run by exact Hu.
  unfold call_events. rewrite <- app_assoc. reflexivity.
Qed.

(** The same at an arbitrary address of an arbitrary machine. *)
Lemma CoreLibNative_CreateGuid_at (e : byte_order) (u : list byte)
      (p : nat) (s : machine) :
  length u = 16 -> p + 16 <= length (heap s) ->
  CoreLibNative_CreateGuid e u p s
  = Some (tt, {| heap := firstn p (heap s) ++ spec_reverse_fields u
                           ++ skipn (p + 16) (heap s);
                 trace := trace s ++ call_events p |}).
Proof.
  intros Hu Hp.
  destruct (heap_split (heap s) p Hp) as (Hm & Hpre & Hbuf).
  destruct s as [m tr]. cbn [heap trace] in *.
  rewrite Hm at 1.
  rewrite <- Hpre at 1 5.
  rewrite (CoreLibNative_CreateGuid_run e u _ _ _ tr Hu Hbuf).
  rewrite Hpre. reflexivity.
Qed.

Lemma length_spec_reverse_fields (bs : list byte) :
  length bs = 16 -> length (spec_reverse_fields bs) = 16.
Proof.
  intros H.
  destruct (length16_inv bs H)
    as (b0 & b1 & b2 & b3 & b4 & b5 & b6 & b7 & b8 & b9 & b10 & b11
        & b12 & b13 & b14 & b15 & ->).
  reflexivity.
Qed.

Lemma spec_reverse_fields_involutive (bs : list byte) :
  length bs = 16 -> spec_reverse_fields (spec_reverse_fields bs) = bs.
Proof.
  intros H.
  destruct (length16_inv bs H)
    as (b0 & b1 & b2 & b3 & b4 & b5 & b6 & b7 & b8 & b9 & b10 & b11
        & b12 & b13 & b14 & b15 & ->).
  reflexivity.
Qed.

Lemma spec_reverse_fields_permute (bs : list byte) :
  length bs = 16 -> spec_reverse_fields bs = permute guid_permutation bs.
Proof.
  intros H.
  destruct (length16_inv bs H)
    as (b0 & b1 & b2 & b3 & b4 & b5 & b6 & b7 & b8 & b9 & b10 & b11
        & b12 & b13 & b14 & b15 & ->).
  reflexivity.
Qed.

Lemma transform_spec (e : byte_order) (bs : list byte) :
  length bs = 16 -> transform e bs = Some (spec_reverse_fields bs).
Proof.
  intros H. unfold transform.
  change 0 with (length (@nil byte)).
  rewrite <- (app_nil_r bs) at 1.
  change (bs ++ []) with ([] ++ bs ++ []).
  rewrite (swap_fields_run e [] bs [] [] H).
  cbn [heap app]. rewrite app_nil_r. reflexivity.
Qed.

Lemma generate_spec (e : byte_order) (u : list byte) :
  length u = 16 -> generate e u = Some (spec_reverse_fields u).
Proof.
  intros H. unfold generate.
  rewrite CoreLibNative_CreateGuid_at by (try exact H; simpl; lia).
  cbn [heap firstn skipn app repeat Nat.add]. rewrite app_nil_r. reflexivity.
Qed.

(** Every machine with a sixteen-byte object at [p] is of the shape the
    run lemmas expect. *)
Lemma machine_split (s : machine) (p : nat) :
  p + 16 <= length (heap s) ->
  exists pre buf post,
    s = {| heap := pre ++ buf ++ post; trace := trace s |}
    /\ length pre = p /\ length buf = 16.
Proof.
  intros H. destruct (heap_split (heap s) p H) as (Hm & Hpre & Hbuf).
  exists (firstn p (heap s)), (firstn 16 (skipn p (heap s))),
    (skipn (p + 16) (heap s)).
  split; [ | split; assumption ].
  destruct s as [m tr]. cbn [heap trace] in *. f_equal. exact Hm.
Qed.

Ltac explode bs H :=
  let b0 := fresh "b0" in let b1 := fresh "b1" in let b2 := fresh "b2" in
  let b3 := fresh "b3" in let b4 := fresh "b4" in let b5 := fresh "b5" in
  let b6 := fresh "b6" in let b7 := fresh "b7" in let b8 := fresh "b8" in
  let b9 := fresh "b9" in let b10 := fresh "b10" in let b11 := fresh "b11" in
  let b12 := fresh "b12" in let b13 := fresh "b13" in let b14 := fresh "b14" in
  let b15 := fresh "b15" in
  destruct (length16_inv bs H)
    as (b0 & b1 & b2 & b3 & b4 & b5 & b6 & b7 & b8 & b9 & b10 & b11
        & b12 & b13 & b14 & b15 & ->).

Lemma swap_stores_within_fields (p : nat) :
  forallb (store_within p (p + offsetof Data4)) (swap_stores p) = true.
Proof.
  unfold swap_stores, store_within, forallb.
  change (offsetof Data1) with 0. change (offsetof Data2) with 4.
  change (offsetof Data3) with 6. change (offsetof Data4) with 8.
  repeat (apply andb_true_intro; split);
    try reflexivity; apply Nat.leb_le; lia.
Qed.

Lemma store_within_weaken (lo hi hi' : nat) (l : list event) :
  hi <= hi' ->
  forallb (store_within lo hi) l = true ->
  forallb (store_within lo hi') l = true.
Proof.
  intros Hle H. rewrite forallb_forall in *. intros ev Hin.
  specialize (H ev Hin). destruct ev as [ | a w ]; cbn in *; [ discriminate | ].
  apply andb_prop in H. destruct H as [H1 H2].
  apply andb_true_intro. split; [ exact H1 | ].
  apply Nat.leb_le. apply Nat.leb_le in H2. lia.
Qed.

Lemma skipn_block {A} (pre mid post : list A) :
  skipn (length pre + length mid) (pre ++ mid ++ post) = post.
Proof.
  rewrite app_assoc, <- length_app, skipn_app, skipn_all, Nat.sub_diag.
  reflexivity.
Qed.

(** What a call leaves behind: the destination holds the reordered bytes,
    the rest of the memory is as before, and the trace has grown by the
    events of the call. *)
Lemma CoreLibNative_CreateGuid_effect
      (e : byte_order) (u : list byte) (p : nat) (s : machine) :
  length u = 16 -> p + 16 <= length (heap s) ->
  exists s',
    CoreLibNative_CreateGuid e u p s = Some (tt, s')
    /\ load_bytes (heap s') p 16 = Some (spec_reverse_fields u)
    /\ trace s' = trace s ++ call_events p
    /\ length (heap s') = length (heap s)
    /\ firstn p (heap s') = firstn p (heap s)
    /\ skipn (p + 16) (heap s') = skipn (p + 16) (heap s).
Proof.
  intros Hu Hp.
  pose proof (length_spec_reverse_fields u Hu) as Hr.
  destruct (machine_split s p Hp) as (pre & buf & post & Hs & Hpre & Hbuf).
  rewrite Hs, <- Hpre.
  rewrite (CoreLibNative_CreateGuid_run e u pre buf post _ Hu Hbuf).
  eexists. split; [ reflexivity | ]. cbn [heap trace].
  repeat split.
  - rewrite <- (Nat.add_0_r (length pre)).
    rewrite load_bytes_mid by lia.
    cbn [skipn]. rewrite firstn_all2 by lia. reflexivity.
  - rewrite !length_app. lia.
  - rewrite !firstn_app, !firstn_all, Nat.sub_diag. reflexivity.
  - transitivity post.
    + rewrite <- Hr. apply skipn_block.
    + symmetry. rewrite <- Hbuf. apply skipn_block.
Qed.

(** ** The claims *)

(** C1. For every sixteen bytes [u] that the random source writes, the
    call succeeds and leaves in the destination an output whose first four
    bytes are the first four bytes of [u] in reverse order, whose bytes 4-5
    are bytes 4-5 of [u] reversed, whose bytes 6-7 are bytes 6-7 of [u]
    reversed, and whose bytes 8-15 are bytes 8-15 of [u]. *)
Theorem CreateGuid_reverses_integer_fields
        (e : byte_order) (u : list byte) (p : nat) (s : machine) :
  length u = 16 -> p + 16 <= length (heap s) ->
  exists s' out,
    CoreLibNative_CreateGuid e u p s = Some (tt, s')
    /\ load_bytes (heap s') p 16 = Some out
    /\ firstn 4 out = rev (firstn 4 u)
    /\ firstn 2 (skipn 4 out) = rev (firstn 2 (skipn 4 u))
    /\ firstn 2 (skipn 6 out) = rev (firstn 2 (skipn 6 u))
    /\ skipn 8 out = skipn 8 u.
Proof.
  intros Hu Hp.
  destruct (machine_split s p Hp) as (pre & buf & post & Hs & Hpre & Hbuf).
  rewrite Hs, <- Hpre.
  rewrite (CoreLibNative_CreateGuid_run e u pre buf post _ Hu Hbuf).
  eexists. exists (spec_reverse_fields u).
  split; [ reflexivity | ]. cbn [heap].
  split.
  - rewrite <- (Nat.add_0_r (length pre)).
    rewrite load_bytes_mid
      by (rewrite length_spec_reverse_fields by exact Hu; lia).
    cbn [skipn]. rewrite firstn_all2
      by (rewrite length_spec_reverse_fields by exact Hu; lia).
    reflexivity.
  - explode u Hu. repeat split; reflexivity.
Qed.

Lemma CreateGuid_reverses_integer_fields_witness :
  exists s' out,
    CoreLibNative_CreateGuid BigEndian (repeat Byte.x2a 16) 2
      {| heap := repeat Byte.x00 20; trace := [] |} = Some (tt, s')
    /\ load_bytes (heap s') 2 16 = Some out
    /\ firstn 4 out = rev (firstn 4 (repeat Byte.x2a 16))
    /\ firstn 2 (skipn 4 out) = rev (firstn 2 (skipn 4 (repeat Byte.x2a 16)))
    /\ firstn 2 (skipn 6 out) = rev (firstn 2 (skipn 6 (repeat Byte.x2a 16)))
    /\ skipn 8 out = skipn 8 (repeat Byte.x2a 16).
Proof.
  apply (CreateGuid_reverses_integer_fields BigEndian (repeat Byte.x2a 16) 2
           {| heap := repeat Byte.x00 20; trace := [] |}).
  - reflexivity.
  - simpl. lia.
Defined.

Lemma read_GUID_reordered (u : list byte) :
  length u = 16 ->
  read_GUID LittleEndian (spec_reverse_fields u) = read_GUID BigEndian u.
Proof. intros Hu. explode u Hu. reflexivity. Qed.

(** C2. For every sixteen-byte UUID [u] of the random source, the output
    read with the little-endian field layout (Data1 a little-endian 32-bit
    integer at bytes 0-3, Data2 and Data3 little-endian 16-bit integers at
    bytes 4-5 and 6-7, Data4 the bytes 8-15) has the field values of [u]
    read with the big-endian layout of RFC 4122.  In particular the version
    is the high nibble of octet 6 of [u] and the variant the top bits of
    octet 8 of [u]. *)
Theorem CreateGuid_preserves_field_values
        (e : byte_order) (u : list byte) (p : nat) (s : machine) :
  length u = 16 -> p + 16 <= length (heap s) ->
  exists s' out,
    CoreLibNative_CreateGuid e u p s = Some (tt, s')
    /\ load_bytes (heap s') p 16 = Some out
    /\ read_GUID LittleEndian out = read_GUID BigEndian u
    /\ uuid_version (read_GUID LittleEndian out)
       = Z.shiftr (byte.unsigned (nth 6 u Byte.x00)) 4
    /\ uuid_variant (read_GUID LittleEndian out)
       = Z.shiftr (byte.unsigned (nth 8 u Byte.x00)) 6.
Proof.
  intros Hu Hp.
  destruct (CoreLibNative_CreateGuid_effect e u p s Hu Hp)
    as (s' & Hrun & Hout & _).
  exists s', (spec_reverse_fields u).
  split; [ exact Hrun | ]. split; [ exact Hout | ].
  split; [ apply read_GUID_reordered; exact Hu | ].
  explode u Hu. split.
  - apply version_bits.
  - reflexivity.
Qed.

Lemma CreateGuid_preserves_field_values_witness :
  exists s' out,
    CoreLibNative_CreateGuid LittleEndian
      [Byte.x01; Byte.x02; Byte.x03; Byte.x04; Byte.x05; Byte.x06;
       Byte.x47; Byte.x08; Byte.x89; Byte.x0a; Byte.x0b; Byte.x0c;
       Byte.x0d; Byte.x0e; Byte.x0f; Byte.x10] 0
      {| heap := repeat Byte.x00 16; trace := [] |} = Some (tt, s')
    /\ load_bytes (heap s') 0 16 = Some out
    /\ read_GUID LittleEndian out
       = {| GUID_Data1 := 0x01020304; GUID_Data2 := 0x0506;
            GUID_Data3 := 0x4708;
            GUID_Data4 := [Byte.x89; Byte.x0a; Byte.x0b; Byte.x0c;
                           Byte.x0d; Byte.x0e; Byte.x0f; Byte.x10] |}
    /\ uuid_version (read_GUID LittleEndian out) = 4%Z
    /\ uuid_variant (read_GUID LittleEndian out) = 2%Z.
Proof.
  apply (CreateGuid_preserves_field_values LittleEndian
           [Byte.x01; Byte.x02; Byte.x03; Byte.x04; Byte.x05; Byte.x06;
            Byte.x47; Byte.x08; Byte.x89; Byte.x0a; Byte.x0b; Byte.x0c;
            Byte.x0d; Byte.x0e; Byte.x0f; Byte.x10] 0
           {| heap := repeat Byte.x00 16; trace := [] |}).
  - reflexivity.
  - simpl. lia.
Defined.

Lemma Data4_of_reordered (bs : list byte) :
  length bs = 16 ->
  firstn 8 (skipn 8 (spec_reverse_fields bs)) = firstn 8 (skipn 8 bs).
Proof. intros H. explode bs H. reflexivity. Qed.

(** C3. The assignments leave Data4 alone: in the state [s1] that the
    random source leaves, bytes 8-15 of the destination are bytes 8-15 of
    [u]; the rest of the call runs from [s1] to the final state [s'], in
    which they are the same bytes still; and every event after the call of
    the random source is a store that ends at or before offset 8 of the
    destination. *)
Theorem CreateGuid_leaves_Data4
        (e : byte_order) (u : list byte) (p : nat) (s : machine) :
  length u = 16 -> p + 16 <= length (heap s) ->
  exists s1 s',
    uuid_generate_random u p s = Some (tt, s1)
    /\ swap_fields e p s1 = Some (tt, s')
    /\ CoreLibNative_CreateGuid e u p s = Some (tt, s')
    /\ load_bytes (heap s1) (p + offsetof Data4) 8 = Some (skipn 8 u)
    /\ load_bytes (heap s') (p + offsetof Data4) 8 = Some (skipn 8 u)
    /\ trace s' = trace s1 ++ swap_stores p
    /\ forallb (store_within p (p + offsetof Data4)) (swap_stores p) = true.
Proof.
  intros Hu Hp.
  pose proof (length_spec_reverse_fields u Hu) as Hr.
  destruct (machine_split s p Hp) as (pre & buf & post & Hs & Hpre & Hbuf).
  rewrite Hs, <- Hpre.
  exists {| heap := pre ++ u ++ post;
            trace := trace s ++ [ev_uuid_generate_random (length pre)] |}.
  exists {| heap := pre ++ spec_reverse_fields u ++ post;
            trace := (trace s ++ [ev_uuid_generate_random (length pre)])
                       ++ swap_stores (length pre) |}.
  split; [ apply uuid_generate_random_mid; congruence | ].
  split; [ apply swap_fields_run; exact Hu | ].
  split.
  { rewrite (CoreLibNative_CreateGuid_run e u pre buf post _ Hu Hbuf).
    unfold call_events. rewrite <- app_assoc. reflexivity. }
  cbn [heap trace].
  change (offsetof Data4) with 8.
  rewrite !load_bytes_mid by lia.
  rewrite Data4_of_reordered by exact Hu.
  rewrite firstn_all2 by (rewrite length_skipn; lia).
  repeat split. apply (swap_stores_within_fields (length pre)).
Qed.

Lemma CreateGuid_leaves_Data4_witness :
  exists s1 s',
    uuid_generate_random (repeat Byte.xff 16) 1
      {| heap := repeat Byte.x00 18; trace := [] |} = Some (tt, s1)
    /\ swap_fields LittleEndian 1 s1 = Some (tt, s')
    /\ CoreLibNative_CreateGuid LittleEndian (repeat Byte.xff 16) 1
         {| heap := repeat Byte.x00 18; trace := [] |} = Some (tt, s')
    /\ load_bytes (heap s1) (1 + offsetof Data4) 8 = Some (repeat Byte.xff 8)
    /\ load_bytes (heap s') (1 + offsetof Data4) 8 = Some (repeat Byte.xff 8)
    /\ trace s' = trace s1 ++ swap_stores 1
    /\ forallb (store_within 1 (1 + offsetof Data4)) (swap_stores 1) = true.
Proof.
  apply (CreateGuid_leaves_Data4 LittleEndian (repeat Byte.xff 16) 1
           {| heap := repeat Byte.x00 18; trace := [] |}).
  - reflexivity.
  - simpl. lia.
Defined.

(** C7. Every store of the call after the random source has run lands in
    the sixteen bytes at [pGuid]; the memory keeps its size, the bytes
    before and after the destination are the ones that were there, and
    the only events are the call of the random source on [pGuid] and those
    stores. *)
Theorem CreateGuid_writes_only_destination
        (e : byte_order) (u : list byte) (p : nat) (s : machine) :
  length u = 16 -> p + 16 <= length (heap s) ->
  exists s',
    CoreLibNative_CreateGuid e u p s = Some (tt, s')
    /\ length (heap s') = length (heap s)
    /\ firstn p (heap s') = firstn p (heap s)
    /\ skipn (p + 16) (heap s') = skipn (p + 16) (heap s)
    /\ (forall a, a < p \/ p + 16 <= a ->
                  nth_error (heap s') a = nth_error (heap s) a)
    /\ exists stores,
         trace s' = trace s ++ ev_uuid_generate_random p :: stores
         /\ forallb (store_within p (p + 16)) stores = true.
Proof.
  intros Hu Hp.
  destruct (CoreLibNative_CreateGuid_effect e u p s Hu Hp)
    as (s' & Hrun & _ & Htr & Hlen & Hpre & Hpost).
  exists s'. repeat split; try assumption.
  - intros a [Ha | Ha].
    + rewrite <- (firstn_skipn p (heap s')), <- (firstn_skipn p (heap s)) at 1.
      rewrite !nth_error_app1 by (rewrite length_firstn; lia).
      rewrite Hpre. reflexivity.
    + rewrite <- (firstn_skipn (p + 16) (heap s')),
        <- (firstn_skipn (p + 16) (heap s)) at 1.
      rewrite !nth_error_app2 by (rewrite length_firstn; lia).
      rewrite !length_firstn, Hlen, Hpost. reflexivity.
  - exists (swap_stores p). split; [ exact Htr | ].
    apply (store_within_weaken p (p + offsetof Data4)).
    + change (offsetof Data4) with 8. lia.
    + apply swap_stores_within_fields.
Qed.

Lemma CreateGuid_writes_only_destination_witness :
  exists s',
    CoreLibNative_CreateGuid BigEndian (repeat Byte.xff 16) 3
      {| heap := repeat Byte.x00 24; trace := [] |} = Some (tt, s')
    /\ length (heap s') = 24
    /\ firstn 3 (heap s') = repeat Byte.x00 3
    /\ skipn (3 + 16) (heap s') = repeat Byte.x00 5
    /\ (forall a, a < 3 \/ 3 + 16 <= a ->
                  nth_error (heap s') a = nth_error (repeat Byte.x00 24) a)
    /\ exists stores,
         trace s' = [] ++ ev_uuid_generate_random 3 :: stores
         /\ forallb (store_within 3 (3 + 16)) stores = true.
Proof.
  apply (CreateGuid_writes_only_destination BigEndian (repeat Byte.xff 16) 3
           {| heap := repeat Byte.x00 24; trace := [] |}).
  - reflexivity.
  - simpl. lia.
Defined.

(** C4. The transformation is an involution: on every sixteen-byte array
    it succeeds, and applied to its own result it gives the array back. *)
Theorem transform_involutive (e : byte_order) (bs : list byte) :
  length bs = 16 ->
  exists bs', transform e bs = Some bs' /\ transform e bs' = Some bs.
Proof.
  intros H. exists (spec_reverse_fields bs). split.
  - apply transform_spec. exact H.
  - rewrite transform_spec by (apply length_spec_reverse_fields; exact H).
    f_equal. apply spec_reverse_fields_involutive. exact H.
Qed.

Lemma transform_involutive_witness :
  exists bs',
    transform LittleEndian (map byte.of_Z (map Z.of_nat (seq 1 16))) = Some bs'
    /\ transform LittleEndian bs'
       = Some (map byte.of_Z (map Z.of_nat (seq 1 16))).
Proof.
  apply (transform_involutive LittleEndian
           (map byte.of_Z (map Z.of_nat (seq 1 16)))).
  reflexivity.
Defined.

(** C5. With the random source replaced by the bytes 01 02 ... 10, the
    function fills a fresh destination with 04 03 02 01 06 05 08 07 09 0A
    0B 0C 0D 0E 0F 10, on a host of either byte order; the three
    assignments alone map the one array to the other. *)
Theorem concrete_example (e : byte_order) :
  generate e example_input = Some example_output
  /\ transform e example_input = Some example_output.
Proof. destruct e; split; vm_compute; reflexivity. Qed.

(** C6. Without libuuid the translation unit does not build: the macro
    undefined or zero gives the [#error] and no function at all.  Whenever
    the unit builds, the macro was set and the function it defines, called
    on a valid destination, runs without fault, returns nothing, calls the
    random source first and then stores the reordered bytes, which are in
    the destination when it returns. *)
Theorem build_requires_libuuid (HAVE_LIBUUID_H : option Z) :
  match pal_guid_cpp HAVE_LIBUUID_H with
  | build_error msg =>
      (HAVE_LIBUUID_H = None \/ HAVE_LIBUUID_H = Some 0%Z)
      /\ msg = "Don't know how to generate UUID on this platform"%string
  | build_ok f =>
      (exists v, HAVE_LIBUUID_H = Some v /\ v <> 0%Z)
      /\ forall (e : byte_order) (u : list byte) (p : nat) (s : machine),
          length u = 16 -> p + 16 <= length (heap s) ->
          exists s',
            f e u p s = Some (tt, s')
            /\ trace s' = trace s ++ ev_uuid_generate_random p :: swap_stores p
            /\ load_bytes (heap s') p 16 = Some (spec_reverse_fields u)
  end.
Proof.
  unfold pal_guid_cpp, cpp_if.
  destruct HAVE_LIBUUID_H as [ v | ].
  - destruct (Z.eqb_spec v 0) as [ -> | Hv ]; cbn [negb].
    + split; [ right | ]; reflexivity.
    + split; [ exists v; split; [ reflexivity | exact Hv ] | ].
      intros e u p s Hu Hp.
      destruct (CoreLibNative_CreateGuid_effect e u p s Hu Hp)
        as (s' & Hrun & Hout & Htr & _).
      exists s'. repeat split; assumption.
  - split; [ left | ]; reflexivity.
Qed.

Lemma build_requires_libuuid_witness :
  pal_guid_cpp None
  = build_error "Don't know how to generate UUID on this platform"%string
  /\ exists s',
      CoreLibNative_CreateGuid LittleEndian example_input 0
        {| heap := repeat Byte.x00 16; trace := [] |} = Some (tt, s')
      /\ trace s' = [] ++ ev_uuid_generate_random 0 :: swap_stores 0
      /\ load_bytes (heap s') 0 16 = Some (spec_reverse_fields example_input).
Proof.
  split.
  - reflexivity.
  - pose proof (build_requires_libuuid (Some 1%Z)) as [_ H].
    apply (H LittleEndian example_input 0
             {| heap := repeat Byte.x00 16; trace := [] |}).
    + reflexivity.
    + simpl. lia.
Defined.

Lemma guid_permutation_is_permutation :
  Permutation guid_permutation (seq 0 16).
Proof.
  apply NoDup_Permutation.
  - unfold guid_permutation.
    repeat (constructor; [ simpl; lia | ]). constructor.
  - apply seq_NoDup.
  - intros x. unfold guid_permutation. simpl. lia.
Qed.

Lemma spec_reverse_fields_Permutation (bs : list byte) :
  length bs = 16 -> Permutation (spec_reverse_fields bs) bs.
Proof.
  intros H. explode bs H.
  change (Permutation
            (rev [b0; b1; b2; b3] ++ rev [b4; b5] ++ rev [b6; b7]
               ++ [b8; b9; b10; b11; b12; b13; b14; b15])
            ([b0; b1; b2; b3] ++ [b4; b5] ++ [b6; b7]
               ++ [b8; b9; b10; b11; b12; b13; b14; b15])).
  repeat apply Permutation_app;
    try (symmetry; apply Permutation_rev); reflexivity.
Qed.

Lemma spec_reverse_fields_injective (a b : list byte) :
  length a = 16 -> length b = 16 ->
  spec_reverse_fields a = spec_reverse_fields b -> a = b.
Proof.
  intros Ha Hb H.
  rewrite <- (spec_reverse_fields_involutive a Ha).
  rewrite <- (spec_reverse_fields_involutive b Hb).
  f_equal. exact H.
Qed.

(** C8. The transformation is the fixed permutation 0<->3, 1<->2, 4<->5,
    6<->7 of the sixteen positions, hence a bijection on sixteen-byte
    arrays: it is the rearrangement by [guid_permutation], which
    enumerates the positions 0..15 and is its own inverse; two arrays with
    the same image are equal, also through the whole function; every
    sixteen-byte array is an image; and the output is a rearrangement of
    the input, so that each of its bytes is a byte of the input. *)
Theorem transform_is_fixed_permutation (e : byte_order) :
  Permutation guid_permutation (seq 0 16)
  /\ (forall i, i < 16 ->
        nth (nth i guid_permutation 0) guid_permutation 0 = i)
  /\ (forall bs, length bs = 16 ->
        transform e bs = Some (permute guid_permutation bs))
  /\ (forall a b, length a = 16 -> length b = 16 ->
        transform e a = transform e b -> a = b)
  /\ (forall u v, length u = 16 -> length v = 16 ->
        generate e u = generate e v -> u = v)
  /\ (forall out, length out = 16 ->
        exists bs, length bs = 16 /\ transform e bs = Some out)
  /\ (forall bs out, length bs = 16 -> transform e bs = Some out ->
        length out = 16 /\ Permutation out bs
        /\ forall x, In x out -> In x bs).
Proof.
  split; [ exact guid_permutation_is_permutation | ].
  split.
  { intros i Hi.
    do 16 (destruct i as [ | i ]; [ reflexivity | ]). lia. }
  split.
  { intros bs H. rewrite transform_spec by exact H.
    f_equal. apply spec_reverse_fields_permute. exact H. }
  split.
  { intros a b Ha Hb H. rewrite !transform_spec in H by assumption.
    injection H as H. apply spec_reverse_fields_injective; assumption. }
  split.
  { intros u v Hu Hv H. rewrite !generate_spec in H by assumption.
    injection H as H. apply spec_reverse_fields_injective; assumption. }
  split.
  { intros out H. exists (spec_reverse_fields out).
    split; [ apply length_spec_reverse_fields; exact H | ].
    rewrite transform_spec by (apply length_spec_reverse_fields; exact H).
    f_equal. apply spec_reverse_fields_involutive. exact H. }
  intros bs out H Ht. rewrite transform_spec in Ht by exact H.
  injection Ht as <-.
  split; [ apply length_spec_reverse_fields; exact H | ].
  split; [ apply spec_reverse_fields_Permutation; exact H | ].
  intros x. apply Permutation_in. apply spec_reverse_fields_Permutation.
  exact H.
Qed.

Lemma transform_is_fixed_permutation_witness :
  transform BigEndian example_input
  = Some (permute guid_permutation example_input)
  /\ (transform BigEndian example_input = transform BigEndian example_input ->
      example_input = example_input)
  /\ exists bs, length bs = 16 /\ transform BigEndian bs = Some example_input.
Proof.
  destruct (transform_is_fixed_permutation BigEndian)
    as (_ & _ & Hperm & Hinj & _ & Hsurj & _).
  split; [ apply Hperm; reflexivity | ].
  split; [ apply Hinj; reflexivity | ].
  apply Hsurj. reflexivity.
Defined.

Lemma divide_1 (a : nat) : Nat.divide a 1 -> a = 1.
Proof. apply Nat.divide_1_r. Qed.

Lemma divide_2 (a : nat) : Nat.divide a 2 -> a = 1 \/ a = 2.
Proof.
  intros H. pose proof (Nat.divide_pos_le a 2 Nat.lt_0_2 H) as Hle.
  destruct H as [z Hz].
  do 3 (destruct a as [ | a ]; [ lia | ]). lia.
Qed.

Lemma divide_4 (a : nat) : Nat.divide a 4 -> a = 1 \/ a = 2 \/ a = 4.
Proof.
  intros H.
  assert (0 < 4) as Hpos by lia.
  pose proof (Nat.divide_pos_le a 4 Hpos H) as Hle.
  destruct H as [z Hz].
  do 5 (destruct a as [ | a ]; [ lia | ]). lia.
Qed.

(** C9. The structure is sixteen bytes without padding, with Data1 at
    offset 0 (4 bytes), Data2 at offset 4 (2 bytes), Data3 at offset 6 (2
    bytes) and Data4 at offset 8 (8 bytes), under every alignment of the
    scalar types that divides their size, which is what C requires of an
    alignment.  A [uuid_t] has the size of the structure, so that laid
    over it, it covers the four members and nothing else. *)
Theorem GUID_layout (al : scalar -> nat) :
  (forall t, Nat.divide (al t) (scalar_size t)) ->
  layout al GUID_decl = [(Data1, 0); (Data2, 4); (Data3, 6); (Data4, 8)]
  /\ map (fun ft => sizeof (snd ft)) GUID_decl = [4; 2; 2; 8]
  /\ struct_size al GUID_decl = 16
  /\ payload_size GUID_decl = struct_size al GUID_decl
  /\ sizeof uuid_t = struct_size al GUID_decl.
Proof.
  intros H.
  pose proof (divide_1 _ (H uint8_t)) as H8.
  pose proof (divide_2 _ (H uint16_t)) as H16.
  pose proof (divide_4 _ (H uint32_t)) as H32.
  unfold layout, struct_size, struct_align, payload_size, GUID_decl.
  cbn [layout_from alignof sizeof scalar_size fold_right snd map].
  rewrite H8.
  destruct H16 as [ -> | -> ]; destruct H32 as [ -> | [ -> | -> ] ];
    repeat split; reflexivity.
Qed.

Lemma GUID_layout_witness :
  (forall t, Nat.divide (natural_alignment t) (scalar_size t))
  /\ layout natural_alignment GUID_decl
     = [(Data1, 0); (Data2, 4); (Data3, 6); (Data4, 8)]
  /\ map (fun ft => sizeof (snd ft)) GUID_decl = [4; 2; 2; 8]
  /\ struct_size natural_alignment GUID_decl = 16
  /\ payload_size GUID_decl = struct_size natural_alignment GUID_decl
  /\ sizeof uuid_t = struct_size natural_alignment GUID_decl.
Proof.
  split.
  - intros t. apply Nat.divide_refl.
  - apply (GUID_layout natural_alignment).
    intros t. apply Nat.divide_refl.
Defined.

(** C10. Loading a field as an integer of the host, swapping the bytes of
    its value and storing it back reverses the bytes of the field in
    memory, on a host of either byte order; so the three assignments of the
    code do to sixteen bytes what the specification says by positions:
    reverse bytes 0-3, bytes 4-5 and bytes 6-7. *)
Theorem integer_swap_refines_byte_reversal (e : byte_order) :
  (forall a b c d : byte,
      encode e 4 (SWAP32 (decode e [a; b; c; d])) = rev [a; b; c; d])
  /\ (forall a b : byte,
      encode e 2 (SWAP16 (decode e [a; b])) = rev [a; b])
  /\ (forall bs, length bs = 16 ->
        transform e bs = Some (spec_reverse_fields bs))
  /\ (forall p s, p + 16 <= length (heap s) ->
        exists s' before,
          load_bytes (heap s) p 16 = Some before
          /\ swap_fields e p s = Some (tt, s')
          /\ load_bytes (heap s') p 16 = Some (spec_reverse_fields before)).
Proof.
  split; [ intros; apply encode_SWAP32_decode | ].
  split; [ intros; apply encode_SWAP16_decode | ].
  split; [ intros bs H; apply transform_spec; exact H | ].
  intros p s Hp.
  destruct (machine_split s p Hp) as (pre & buf & post & Hs & Hpre & Hbuf).
  pose proof (length_spec_reverse_fields buf Hbuf) as Hr.
  rewrite Hs, <- Hpre.
  exists {| heap := pre ++ spec_reverse_fields buf ++ post;
            trace := trace s ++ swap_stores (length pre) |}.
  exists buf. cbn [heap].
  rewrite <- (Nat.add_0_r (length pre)).
  rewrite !load_bytes_mid by lia.
  cbn [skipn]. rewrite !firstn_all2 by lia.
  rewrite Nat.add_0_r.
  split; [ reflexivity | ]. split; [ | reflexivity ].
  apply swap_fields_run. exact Hbuf.
Qed.

Lemma integer_swap_refines_byte_reversal_witness :
  transform BigEndian example_input = Some (spec_reverse_fields example_input)
  /\ exists s' before,
      load_bytes (example_input ++ [Byte.xff]) 0 16 = Some before
      /\ swap_fields BigEndian 0
           {| heap := example_input ++ [Byte.xff]; trace := [] |}
         = Some (tt, s')
      /\ load_bytes (heap s') 0 16 = Some (spec_reverse_fields before).
Proof.
  destruct (integer_swap_refines_byte_reversal BigEndian)
    as (_ & _ & Ht & Hm).
  split.
  - apply Ht. reflexivity.
  - apply (Hm 0 {| heap := example_input ++ [Byte.xff]; trace := [] |}).
    simpl. lia.
Defined.

(** ** Further properties of the function *)

Lemma decode_reversed_SWAP32 (e : byte_order) (a b c d : byte) :
  decode e [d; c; b; a] = SWAP32 (decode e [a; b; c; d]).
Proof.
  destruct e; unfold decode; cbn [rev app]; symmetry;
    apply SWAP32_le_combine.
Qed.

Lemma decode_reversed_SWAP16 (e : byte_order) (a b : byte) :
  decode e [b; a] = SWAP16 (decode e [a; b]).
Proof.
  destruct e; unfold decode; cbn [rev app]; symmetry;
    apply SWAP16_le_combine.
Qed.

Lemma CoreLibNative_CreateGuid_run_at (e : byte_order)
      (u pre buf post : list byte) (tr : list event) (p : nat) :
  length u = 16 -> length buf = 16 -> length pre = p ->
  CoreLibNative_CreateGuid e u p {| heap := pre ++ buf ++ post; trace := tr |}
  = Some (tt, {| heap := pre ++ spec_reverse_fields u ++ post;
                 trace := tr ++ call_events p |}).
Proof.
  intros Hu Hbuf <-. apply CoreLibNative_CreateGuid_run; assumption.
Qed.

Lemma load_bytes_block (pre blk post : list byte) (p n : nat) :
  length pre = p -> length blk = n ->
  load_bytes (pre ++ blk ++ post) p n = Some blk.
Proof.
  intros <- <-. rewrite <- (Nat.add_0_r (length pre)).
  rewrite load_bytes_mid by lia.
  cbn [skipn]. rewrite firstn_all. reflexivity.
Qed.

(** Read back by the host, each integer field holds the swapped value of
    what the host read in the bytes of the random source; this is so on a
    host of either byte order, the swap being unconditional. *)
Theorem fields_read_back_swapped
        (e : byte_order) (u : list byte) (p : nat) (s : machine) :
  length u = 16 -> p + 16 <= length (heap s) ->
  exists s',
    CoreLibNative_CreateGuid e u p s = Some (tt, s')
    /\ load e uint32_t (p + offsetof Data1) s'
       = Some (SWAP32 (decode e (firstn 4 u)), s')
    /\ load e uint16_t (p + offsetof Data2) s'
       = Some (SWAP16 (decode e (firstn 2 (skipn 4 u))), s')
    /\ load e uint16_t (p + offsetof Data3) s'
       = Some (SWAP16 (decode e (firstn 2 (skipn 6 u))), s').
Proof.
  intros Hu Hp.
  destruct (machine_split s p Hp) as (pre & buf & post & Hs & Hpre & Hbuf).
  rewrite Hs, <- Hpre.
  exists {| heap := pre ++ spec_reverse_fields u ++ post;
            trace := trace s ++ call_events (length pre) |}.
  split; [ apply CoreLibNative_CreateGuid_run; assumption | ].
  explode u Hu.
  change (offsetof Data1) with 0. change (offsetof Data2) with 4.
  change (offsetof Data3) with 6.
  rewrite !load_mid by (simpl; lia).
  cbn [scalar_size firstn skipn spec_reverse_fields reverse_bytes_at
       rev app Nat.add].
  rewrite <- decode_reversed_SWAP32, <- !decode_reversed_SWAP16.
  repeat split.
Qed.

Lemma fields_read_back_swapped_witness :
  exists s',
    CoreLibNative_CreateGuid BigEndian example_input 0
      {| heap := repeat Byte.x00 16; trace := [] |} = Some (tt, s')
    /\ load BigEndian uint32_t (0 + offsetof Data1) s'
       = Some (SWAP32 0x01020304, s')
    /\ load BigEndian uint16_t (0 + offsetof Data2) s'
       = Some (SWAP16 0x0506, s')
    /\ load BigEndian uint16_t (0 + offsetof Data3) s'
       = Some (SWAP16 0x0708, s').
Proof.
  apply (fields_read_back_swapped BigEndian example_input 0
           {| heap := repeat Byte.x00 16; trace := [] |}).
  - reflexivity.
  - simpl. lia.
Defined.

Lemma length8_inv {A} (l : list A) :
  length l = 8 ->
  exists b0 b1 b2 b3 b4 b5 b6 b7, l = [b0; b1; b2; b3; b4; b5; b6; b7].
Proof.
  intros H.
  do 8 (destruct l as [ | ? l ]; [ discriminate H | ]).
  destruct l; [ | discriminate H ].
  repeat eexists.
Qed.

Lemma block_split (m : list byte) (p n : nat) :
  p + n <= length m ->
  m = firstn p m ++ firstn n (skipn p m) ++ skipn (p + n) m
  /\ length (firstn p m) = p
  /\ length (firstn n (skipn p m)) = n.
Proof.
  intros H. split; [ | split ].
  - rewrite (Nat.add_comm p n), <- skipn_skipn.
    rewrite (firstn_skipn n (skipn p m)). symmetry. apply firstn_skipn.
  - rewrite length_firstn. lia.
  - rewrite length_firstn, length_skipn. lia.
Qed.

(** The three assignments on a block of eight bytes. *)
Lemma swap_fields_run8 (e : byte_order) (pre buf post : list byte)
      (tr : list event) :
  length buf = 8 ->
  swap_fields e (length pre) {| heap := pre ++ buf ++ post; trace := tr |}
  = Some (tt, {| heap := pre ++ (rev (firstn 4 buf)
                                   ++ rev (firstn 2 (skipn 4 buf))
                                   ++ rev (firstn 2 (skipn 6 buf))) ++ post;
                 trace := tr ++ swap_stores (length pre) |}).
Proof.
  intros H.
  destruct (length8_inv buf H)
    as (b0 & b1 & b2 & b3 & b4 & b5 & b6 & b7 & ->).
  unfold swap_fields, swap_stores, bind.
  change (offsetof Data1) with 0.
  change (offsetof Data2) with 4.
  change (offsetof Data3) with 6.
  run_load. run_store.
  run_load. run_store.
  run_load. run_store.
  rewrite <- !app_assoc. reflexivity.
Qed.

Lemma load_Some_inv (e : byte_order) (t : scalar) (a : nat) (s s' : machine)
      (v : Z) :
  load e t a s = Some (v, s') ->
  s' = s /\ a + scalar_size t <= length (heap s).
Proof.
  unfold load, load_bytes.
  destruct (Nat.leb_spec (a + scalar_size t) (length (heap s))) as [ Hle | _ ];
    [ | discriminate ].
  intros H. injection H as _ <-. split; [ reflexivity | exact Hle ].
Qed.

Lemma store_Some_inv (e : byte_order) (t : scalar) (a : nat) (v : Z)
      (s s' : machine) (r : unit) :
  store e t a v s = Some (r, s') ->
  a + scalar_size t <= length (heap s)
  /\ length (heap s') = length (heap s).
Proof.
  unfold store, store_bytes. rewrite length_encode.
  destruct (Nat.leb_spec (a + scalar_size t) (length (heap s))) as [ Hle | _ ];
    [ | discriminate ].
  intros H. injection H as _ <-. split; [ exact Hle | ].
  cbn [heap]. rewrite !length_app, length_firstn, length_skipn, length_encode.
  lia.
Qed.

(** The three assignments touch the first eight bytes of the structure and
    nothing else, reads included: they run whenever eight bytes at [pGuid]
    are in the memory, whatever follows them, reverse bytes 0-3, 4-5 and
    6-7 there and keep every other byte; they fault when fewer than eight
    bytes are there. *)
Theorem swap_fields_footprint (e : byte_order) (p : nat) (s : machine) :
  (p + 8 <= length (heap s) ->
   exists s',
     swap_fields e p s = Some (tt, s')
     /\ heap s'
        = firstn p (heap s)
            ++ (rev (firstn 4 (skipn p (heap s)))
                  ++ rev (firstn 2 (skipn (p + 4) (heap s)))
                  ++ rev (firstn 2 (skipn (p + 6) (heap s))))
            ++ skipn (p + 8) (heap s)
     /\ trace s' = trace s ++ swap_stores p)
  /\ (length (heap s) < p + 8 -> swap_fields e p s = None).
Proof.
  split.
  - intros Hp.
    destruct (block_split (heap s) p 8 Hp) as (Hm & Hpre & Hbuf).
    set (pre := firstn p (heap s)) in *.
    set (buf := firstn 8 (skipn p (heap s))) in *.
    set (post := skipn (p + 8) (heap s)) in *.
    exists {| heap := pre ++ (rev (firstn 4 buf)
                               ++ rev (firstn 2 (skipn 4 buf))
                               ++ rev (firstn 2 (skipn 6 buf))) ++ post;
              trace := trace s ++ swap_stores p |}.
    split.
    + destruct s as [m tr]. cbn [heap trace] in *.
      rewrite Hm, <- Hpre. apply swap_fields_run8. exact Hbuf.
    + cbn [heap trace]. split; [ | reflexivity ].
      subst buf. rewrite !skipn_firstn_comm, !firstn_firstn, !skipn_skipn.
      cbn [Nat.sub Nat.min].
      rewrite (Nat.add_comm 4 p), (Nat.add_comm 6 p). reflexivity.
  - intros Hp. unfold swap_fields, bind.
    change (offsetof Data1) with 0. change (offsetof Data2) with 4.
    change (offsetof Data3) with 6.
    destruct (load e uint32_t (p + 0) s) as [ [d1 s1] | ] eqn:E1;
      [ | reflexivity ].
    apply load_Some_inv in E1. destruct E1 as [-> _].
    destruct (store e uint32_t (p + 0) (SWAP32 d1) s) as [ [r2 s2] | ] eqn:E2;
      [ | reflexivity ].
    apply store_Some_inv in E2. destruct E2 as [_ L2].
    destruct (load e uint16_t (p + 4) s2) as [ [d2 s3] | ] eqn:E3;
      [ | reflexivity ].
    apply load_Some_inv in E3. destruct E3 as [-> _].
    destruct (store e uint16_t (p + 4) (SWAP16 d2) s2) as [ [r4 s4] | ] eqn:E4;
      [ | reflexivity ].
    apply store_Some_inv in E4. destruct E4 as [_ L4].
    destruct (load e uint16_t (p + 6) s4) as [ [d3 s5] | ] eqn:E5;
      [ | reflexivity ].
    apply load_Some_inv in E5. destruct E5 as [_ H5].
    cbn [scalar_size] in H5. lia.
Qed.

Lemma swap_fields_footprint_witness :
  (exists s',
      swap_fields LittleEndian 1
        {| heap := map byte.of_Z (map Z.of_nat (seq 0 9)); trace := [] |}
      = Some (tt, s')
      /\ heap s'
         = [Byte.x00; Byte.x04; Byte.x03; Byte.x02; Byte.x01; Byte.x06;
            Byte.x05; Byte.x08; Byte.x07]
      /\ trace s' = [] ++ swap_stores 1)
  /\ swap_fields LittleEndian 1
       {| heap := map byte.of_Z (map Z.of_nat (seq 0 8)); trace := [] |}
     = None.
Proof.
  split.
  - apply (swap_fields_footprint LittleEndian 1
             {| heap := map byte.of_Z (map Z.of_nat (seq 0 9)); trace := [] |}).
    simpl. lia.
  - apply (swap_fields_footprint LittleEndian 1
             {| heap := map byte.of_Z (map Z.of_nat (seq 0 8)); trace := [] |}).
    simpl. lia.
Defined.

(** A call runs to its end exactly when the sixteen bytes of the
    destination are in the memory; otherwise it faults, and it does so in
    the random source, before any byte is swapped. *)
Theorem CreateGuid_needs_sixteen_bytes
        (e : byte_order) (u : list byte) (p : nat) (s : machine) :
  length u = 16 ->
  ((exists s', CoreLibNative_CreateGuid e u p s = Some (tt, s'))
   <-> p + 16 <= length (heap s))
  /\ (length (heap s) < p + 16 ->
      uuid_generate_random u p s = None
      /\ CoreLibNative_CreateGuid e u p s = None).
Proof.
  intros Hu.
  assert (length (heap s) < p + 16 -> uuid_generate_random u p s = None)
    as Hfault.
  { intros Hlt. unfold uuid_generate_random, store_bytes. rewrite Hu.
    destruct (Nat.leb_spec (p + 16) (length (heap s))); [ lia | reflexivity ]. }
  split; [ split | ].
  - intros [s' Hrun].
    destruct (Nat.le_gt_cases (p + 16) (length (heap s))) as [ Hle | Hlt ];
      [ exact Hle | ].
    rewrite CoreLibNative_CreateGuid_unfold in Hrun. unfold bind in Hrun.
    rewrite (Hfault Hlt) in Hrun. discriminate Hrun.
  - intros Hp.
    destruct (CoreLibNative_CreateGuid_effect e u p s Hu Hp) as (s' & Hrun & _).
    exists s'. exact Hrun.
  - intros Hlt. split; [ exact (Hfault Hlt) | ].
    rewrite CoreLibNative_CreateGuid_unfold. unfold bind.
    rewrite (Hfault Hlt). reflexivity.
Qed.

Lemma CreateGuid_needs_sixteen_bytes_witness :
  (exists s',
      CoreLibNative_CreateGuid LittleEndian example_input 2
        {| heap := repeat Byte.x00 18; trace := [] |} = Some (tt, s'))
  /\ CoreLibNative_CreateGuid LittleEndian example_input 2
       {| heap := repeat Byte.x00 17; trace := [] |} = None.
Proof.
  split.
  - destruct (CreateGuid_needs_sixteen_bytes LittleEndian example_input 2
                {| heap := repeat Byte.x00 18; trace := [] |} eq_refl)
      as [[_ H] _].
    apply H. simpl. lia.
  - destruct (CreateGuid_needs_sixteen_bytes LittleEndian example_input 2
                {| heap := repeat Byte.x00 17; trace := [] |} eq_refl)
      as [_ H].
    apply H. simpl. lia.
Defined.

(** What a call leaves in the destination does not depend on what was
    there: after two calls on the same destination the memory is the one
    that the second call alone gives. *)
Theorem CreateGuid_overwrites
        (e : byte_order) (u1 u2 : list byte) (p : nat) (s : machine) :
  length u1 = 16 -> length u2 = 16 -> p + 16 <= length (heap s) ->
  exists s1 s2 s2',
    CoreLibNative_CreateGuid e u1 p s = Some (tt, s1)
    /\ CoreLibNative_CreateGuid e u2 p s1 = Some (tt, s2)
    /\ CoreLibNative_CreateGuid e u2 p s = Some (tt, s2')
    /\ heap s2 = heap s2'
    /\ trace s2 = trace s ++ call_events p ++ call_events p.
Proof.
  intros H1 H2 Hp.
  destruct (machine_split s p Hp) as (pre & buf & post & Hs & Hpre & Hbuf).
  rewrite Hs. cbn [trace].
  exists {| heap := pre ++ spec_reverse_fields u1 ++ post;
            trace := trace s ++ call_events p |}.
  exists {| heap := pre ++ spec_reverse_fields u2 ++ post;
            trace := (trace s ++ call_events p) ++ call_events p |}.
  exists {| heap := pre ++ spec_reverse_fields u2 ++ post;
            trace := trace s ++ call_events p |}.
  split; [ apply CoreLibNative_CreateGuid_run_at; assumption | ].
  split.
  { apply CoreLibNative_CreateGuid_run_at; try assumption.
    apply length_spec_reverse_fields. exact H1. }
  split; [ apply CoreLibNative_CreateGuid_run_at; assumption | ].
  cbn [heap trace]. split; [ reflexivity | ].
  symmetry. apply app_assoc.
Qed.

Lemma CreateGuid_overwrites_witness :
  exists s1 s2 s2',
    CoreLibNative_CreateGuid BigEndian (repeat Byte.xff 16) 1
      {| heap := repeat Byte.x00 18; trace := [] |} = Some (tt, s1)
    /\ CoreLibNative_CreateGuid BigEndian example_input 1 s1 = Some (tt, s2)
    /\ CoreLibNative_CreateGuid BigEndian example_input 1
         {| heap := repeat Byte.x00 18; trace := [] |} = Some (tt, s2')
    /\ heap s2 = heap s2'
    /\ trace s2 = [] ++ call_events 1 ++ call_events 1.
Proof.
  apply (CreateGuid_overwrites BigEndian (repeat Byte.xff 16) example_input 1
           {| heap := repeat Byte.x00 18; trace := [] |}).
  - reflexivity.
  - reflexivity.
  - simpl. lia.
Defined.

(** A machine with two disjoint sixteen-byte objects, at [p] and at [q]. *)
Lemma machine_split2 (s : machine) (p q : nat) :
  p + 16 <= q -> q + 16 <= length (heap s) ->
  exists a b1 c b2 d,
    s = {| heap := a ++ b1 ++ c ++ b2 ++ d; trace := trace s |}
    /\ length a = p /\ length b1 = 16
    /\ length c = q - (p + 16) /\ length b2 = 16.
Proof.
  intros Hpq Hq.
  assert (p + 16 <= length (heap s)) as Hp by lia.
  destruct (block_split (heap s) p 16 Hp) as (Hm & Ha & Hb1).
  assert ((q - (p + 16)) + 16 <= length (skipn (p + 16) (heap s))) as Hrest
    by (rewrite length_skipn; lia).
  destruct (block_split _ _ 16 Hrest) as (Hm' & Hc & Hb2).
  exists (firstn p (heap s)), (firstn 16 (skipn p (heap s))),
    (firstn (q - (p + 16)) (skipn (p + 16) (heap s))),
    (firstn 16 (skipn (q - (p + 16)) (skipn (p + 16) (heap s)))),
    (skipn (q - (p + 16) + 16) (skipn (p + 16) (heap s))).
  repeat split; try assumption.
  destruct s as [m tr]. cbn [heap trace] in *. f_equal.
  rewrite <- Hm'. exact Hm.
Qed.

(** Calls on two destinations that do not overlap do not disturb each
    other: in whichever order they are made the memory is the same at the
    end, and each destination holds the reordered bytes of its own call. *)
Theorem CreateGuid_disjoint_calls_commute
        (e : byte_order) (u v : list byte) (p q : nat) (s : machine) :
  length u = 16 -> length v = 16 ->
  p + 16 <= q -> q + 16 <= length (heap s) ->
  exists s1 s2 t1 t2,
    CoreLibNative_CreateGuid e u p s = Some (tt, s1)
    /\ CoreLibNative_CreateGuid e v q s1 = Some (tt, s2)
    /\ CoreLibNative_CreateGuid e v q s = Some (tt, t1)
    /\ CoreLibNative_CreateGuid e u p t1 = Some (tt, t2)
    /\ heap s2 = heap t2
    /\ load_bytes (heap s2) p 16 = Some (spec_reverse_fields u)
    /\ load_bytes (heap s2) q 16 = Some (spec_reverse_fields v).
Proof.
  intros Hu Hv Hpq Hq.
  pose proof (length_spec_reverse_fields u Hu) as Hru.
  pose proof (length_spec_reverse_fields v Hv) as Hrv.
  destruct (machine_split2 s p q Hpq Hq)
    as (a & b1 & c & b2 & d & Hs & Ha & Hb1 & Hc & Hb2).
  rewrite Hs. cbn [trace]. set (tr := trace s).
  assert (forall x : list byte, length x = 16 -> length (a ++ x ++ c) = q)
    as Hlen by (intros x Hx; rewrite !length_app; lia).
  assert (forall x y : list byte,
             a ++ x ++ c ++ y ++ d = (a ++ x ++ c) ++ y ++ d) as Hassoc
    by (intros x y; rewrite <- !app_assoc; reflexivity).
  exists {| heap := a ++ spec_reverse_fields u ++ c ++ b2 ++ d;
            trace := tr ++ call_events p |}.
  exists {| heap := (a ++ spec_reverse_fields u ++ c)
                      ++ spec_reverse_fields v ++ d;
            trace := (tr ++ call_events p) ++ call_events q |}.
  exists {| heap := (a ++ b1 ++ c) ++ spec_reverse_fields v ++ d;
            trace := tr ++ call_events q |}.
  exists {| heap := a ++ spec_reverse_fields u ++ c
                      ++ spec_reverse_fields v ++ d;
            trace := (tr ++ call_events q) ++ call_events p |}.
  split; [ apply CoreLibNative_CreateGuid_run_at; assumption | ].
  split.
  { rewrite Hassoc. apply CoreLibNative_CreateGuid_run_at; auto. }
  split.
  { rewrite Hassoc. apply CoreLibNative_CreateGuid_run_at; auto. }
  split.
  { rewrite <- Hassoc. apply CoreLibNative_CreateGuid_run_at; assumption. }
  cbn [heap]. split; [ symmetry; apply Hassoc | ].
  split.
  - rewrite <- Hassoc. apply load_bytes_block; assumption.
  - apply load_bytes_block; auto.
Qed.

Lemma CreateGuid_disjoint_calls_commute_witness :
  exists s1 s2 t1 t2,
    CoreLibNative_CreateGuid LittleEndian example_input 0
      {| heap := repeat Byte.x00 33; trace := [] |} = Some (tt, s1)
    /\ CoreLibNative_CreateGuid LittleEndian (repeat Byte.xff 16) 17 s1
       = Some (tt, s2)
    /\ CoreLibNative_CreateGuid LittleEndian (repeat Byte.xff 16) 17
         {| heap := repeat Byte.x00 33; trace := [] |} = Some (tt, t1)
    /\ CoreLibNative_CreateGuid LittleEndian example_input 0 t1 = Some (tt, t2)
    /\ heap s2 = heap t2
    /\ load_bytes (heap s2) 0 16 = Some example_output
    /\ load_bytes (heap s2) 17 16 = Some (repeat Byte.xff 16).
Proof.
  apply (CreateGuid_disjoint_calls_commute LittleEndian example_input
           (repeat Byte.xff 16) 0 17
           {| heap := repeat Byte.x00 33; trace := [] |}).
  - reflexivity.
  - reflexivity.
  - simpl. lia.
  - simpl. lia.
Defined.
